(** * ChibiOS.h of the esplanade Arduino core: time conversions, kernel types
      and the virtual timer queue

    The header [variants/code/ChibiOS.h] declares the system-call surface of
    the kernel that runs on the board (a Cortex-M0+, ILP32 data model):
    the tick frequency, six conversion macros between wall-clock units and
    system ticks, the kernel types, and the prototypes of the virtual timer
    and thread primitives.

    - [CTypes] embeds the C types the header declares, with their sizes and
      value ranges under the target's data model.
    - [Conv] embeds the six conversion macros, with the wrap-around of every
      unsigned operation written out.
    - [VT] models the virtual timer queue behind [setTimer]/[resetTimer];
      the header only carries their prototypes. *)

From Stdlib Require Import ZArith List Lia Bool QArith Qround.
Import ListNotations.
Local Open Scope Z_scope.
Set Warnings "-register-all".

(* ================================================================== *)
(** ** C types *)

Module CTypes.

(** The C types that occur in the header.  [Tuint bits] is an unsigned
    integer type of the given width; function pointers and data pointers
    have the same representation on the target. *)
Inductive ctype : Type :=
| Tuint (bits : Z)
| Tpointer
| Tarray (elt : ctype) (len : Z)
| Tstruct (fields : list ctype).

(** [<stdint.h>] and the built-in types, ILP32. *)
Definition uint8_t : ctype := Tuint 8.
Definition uint32_t : ctype := Tuint 32.
Definition unsigned_long : ctype := Tuint 32.

Fixpoint alignof (t : ctype) : Z :=
  match t with
  | Tuint bits => bits / 8
  | Tpointer => 4
  | Tarray elt _ => alignof elt
  | Tstruct fields =>
      (fix fields_align (l : list ctype) : Z :=
         match l with
         | [] => 1
         | f :: r => Z.max (alignof f) (fields_align r)
         end) fields
  end.

(** Round an offset up to the next multiple of an alignment. *)
Definition align_up (off a : Z) : Z := (off + a - 1) / a * a.

(** Size in bytes: members are laid out in declaration order, each at the
    next offset that satisfies its alignment, and the struct is padded at
    the end to a multiple of its own alignment. *)
Fixpoint sizeof (t : ctype) : Z :=
  match t with
  | Tuint bits => bits / 8
  | Tpointer => 4
  | Tarray elt len => sizeof elt * len
  | Tstruct fields =>
      align_up
        ((fix fields_end (l : list ctype) (off : Z) : Z :=
            match l with
            | [] => off
            | f :: r => fields_end r (align_up off (alignof f) + sizeof f)
            end) fields 0)
        (alignof (Tstruct fields))
  end.

(** Largest value of an integer type (0 for the other types). *)
Definition max_value (t : ctype) : Z :=
  match t with
  | Tuint bits => 2 ^ bits - 1
  | _ => 0
  end.

Definition in_range (t : ctype) (v : Z) : Prop := 0 <= v <= max_value t.

(** Conversion to an unsigned integer type: reduction modulo [2^bits]. *)
Definition cast (t : ctype) (v : Z) : Z :=
  match t with
  | Tuint bits => v mod 2 ^ bits
  | _ => v
  end.

(** Arithmetic carried out in an unsigned type. *)
Definition add_in (t : ctype) (a b : Z) : Z := cast t (a + b).
Definition sub_in (t : ctype) (a b : Z) : Z := cast t (a - b).
Definition mul_in (t : ctype) (a b : Z) : Z := cast t (a * b).
Definition div_in (t : ctype) (a b : Z) : Z := cast t (a / b).

(** [typedef struct { uint8_t data[64]; } thread_t;] *)
Definition thread_t : ctype := Tstruct [Tarray uint8_t 64].

(** [typedef uint32_t systime_t;] and its two siblings. *)
Definition systime_t : ctype := uint32_t.
Definition tprio_t : ctype := uint32_t.
Definition msg_t : ctype := uint32_t.

(** [typedef thread_t * thread_reference_t;], [vtfunc_t], [tfunc_t]. *)
Definition thread_reference_t : ctype := Tpointer.
Definition vtfunc_t : ctype := Tpointer.
Definition tfunc_t : ctype := Tpointer.

(** [struct ch_virtual_timer]: vt_next, vt_prev, vt_delta, vt_func,
    vt_par. *)
Definition virtual_timer_t : ctype :=
  Tstruct [Tpointer; Tpointer; systime_t; vtfunc_t; Tpointer].

(** Offsets of the members of a struct, laid out in declaration order from
    offset [off]: each member goes to the next offset that satisfies its
    alignment. *)
Fixpoint field_offsets (fields : list ctype) (off : Z) : list Z :=
  match fields with
  | [] => []
  | f :: r =>
      let o := align_up off (alignof f) in
      o :: field_offsets r (o + sizeof f)
  end.

End CTypes.

(* ================================================================== *)
(** ** Time conversion macros *)

Module Conv.
Import CTypes.

(** [#define CH_CFG_ST_FREQUENCY 100] *)
Definition CH_CFG_ST_FREQUENCY : Z := 100.

(** The operators of the macro bodies.  Every operation has an operand
    of type [uint32_t] or [unsigned long], so after the usual arithmetic
    conversions each one is a 32-bit unsigned operation. *)
Definition umul (a b : Z) : Z := mul_in unsigned_long a b.
Definition uadd (a b : Z) : Z := add_in unsigned_long a b.
Definition usub (a b : Z) : Z := sub_in unsigned_long a b.
Definition udiv (a b : Z) : Z := div_in unsigned_long a b.

(** [((systime_t)((uint32_t)(sec) * (uint32_t)CH_CFG_ST_FREQUENCY))] *)
Definition S2ST (sec : Z) : Z :=
  cast systime_t
    (umul (cast uint32_t sec) (cast uint32_t CH_CFG_ST_FREQUENCY)).

(** [((systime_t)(((((uint32_t)(msec)) *
      ((uint32_t)CH_CFG_ST_FREQUENCY)) + 999UL) / 1000UL))] *)
Definition MS2ST (msec : Z) : Z :=
  cast systime_t
    (udiv (uadd (umul (cast uint32_t msec)
                      (cast uint32_t CH_CFG_ST_FREQUENCY)) 999) 1000).

(** [((systime_t)(((((uint32_t)(usec)) *
      ((uint32_t)CH_CFG_ST_FREQUENCY)) + 999999UL) / 1000000UL))] *)
Definition US2ST (usec : Z) : Z :=
  cast systime_t
    (udiv (uadd (umul (cast uint32_t usec)
                      (cast uint32_t CH_CFG_ST_FREQUENCY)) 999999) 1000000).

(** [(((n) + CH_CFG_ST_FREQUENCY - 1UL) / CH_CFG_ST_FREQUENCY)];
    the argument is a tick count, of type [systime_t]. *)
Definition ST2S (n : Z) : Z :=
  udiv (usub (uadd n CH_CFG_ST_FREQUENCY) 1) CH_CFG_ST_FREQUENCY.

(** [(((n) * 1000UL + CH_CFG_ST_FREQUENCY - 1UL) / CH_CFG_ST_FREQUENCY)] *)
Definition ST2MS (n : Z) : Z :=
  udiv (usub (uadd (umul n 1000) CH_CFG_ST_FREQUENCY) 1)
       CH_CFG_ST_FREQUENCY.

(** [(((n) * 1000000UL + CH_CFG_ST_FREQUENCY - 1UL) /
      CH_CFG_ST_FREQUENCY)] *)
Definition ST2US (n : Z) : Z :=
  udiv (usub (uadd (umul n 1000000) CH_CFG_ST_FREQUENCY) 1)
       CH_CFG_ST_FREQUENCY.

(** The expression of the ceiling property,
    [MS2ST(ms) * 1000 / FREQUENCY], evaluated like the macros in
    32-bit unsigned arithmetic. *)
Definition ST_to_ms_back (ticks : Z) : Z :=
  udiv (umul ticks 1000) CH_CFG_ST_FREQUENCY.

(** Mathematical ceiling of the rational [a / b]. *)
Definition ceil_div (a b : Z) : Z :=
  Qceiling (inject_Z a / inject_Z b).

End Conv.

(* ================================================================== *)
(** ** Virtual timer queue *)

Module VT.
Import CTypes.

(** One armed timer: the fields of [struct ch_virtual_timer].  [vt_addr] is
    the address of the caller's struct, which identifies the timer; the
    links [vt_next] and [vt_prev] are the spine of the list that holds the
    armed timers. *)
Record ch_virtual_timer : Type := mk_vt {
  vt_addr : Z;
  vt_delta : Z;
  vt_func : Z;
  vt_par : Z
}.

(** The delta list, head first. *)
Definition vtlist : Type := list ch_virtual_timer.

(** One call [vt_func(vt_par)] made by the tick handler, with the timer
    that caused it. *)
Record invocation : Type := mk_inv {
  inv_timer : Z;
  inv_func : Z;
  inv_par : Z
}.

Definition invoke (t : ch_virtual_timer) : invocation :=
  mk_inv (vt_addr t) (vt_func t) (vt_par t).

Definition set_delta (d : Z) (t : ch_virtual_timer) : ch_virtual_timer :=
  mk_vt (vt_addr t) d (vt_func t) (vt_par t).

(** Modelled from the spec: the body of [resetTimer], of which the header
    has the prototype only.  It cancels an armed timer and is a no-op on a
    timer that is not armed: the timer is unlinked and its delta is
    propagated onto the following node, so that node keeps its absolute
    deadline.  No callback is invoked. *)
Fixpoint resetTimer (vtp : Z) (q : vtlist) : vtlist :=
  match q with
  | [] => []
  | t :: rest =>
      if vt_addr t =? vtp then
        match rest with
        | [] => []
        | n :: rest' =>
            set_delta (add_in systime_t (vt_delta n) (vt_delta t)) n :: rest'
        end
      else t :: resetTimer vtp rest
  end.

(** Modelled from the spec: the insertion walk of [setTimer].  It walks from
    the head, subtracting each visited node's delta from [delay], and stops
    at the first node whose delta exceeds what is left, so a timer with the
    deadline of an existing one is placed after it.  What is left of
    [delay] becomes the new node's delta, and the following node's delta is
    reduced by it, which keeps the sum of the deltas up to any node equal
    to that node's ticks left. *)
Fixpoint vt_insert (vtp delay func par : Z) (q : vtlist) : vtlist :=
  match q with
  | [] => [mk_vt vtp delay func par]
  | p :: rest =>
      if vt_delta p <=? delay then
        p :: vt_insert vtp (sub_in systime_t delay (vt_delta p)) func par rest
      else
        mk_vt vtp delay func par
          :: set_delta (sub_in systime_t (vt_delta p) delay) p :: rest
  end.

(** Modelled from the spec: the body of [setTimer], of which the header has
    the prototype only.  Arming a timer that is already armed is
    detach-then-insert.  The spec leaves the [int] result open; the model
    returns the queue. *)
Definition setTimer (vtp delay func par : Z) (q : vtlist) : vtlist :=
  vt_insert vtp (cast systime_t delay) func par (resetTimer vtp q).

(** Modelled from the spec: the loop of the tick handler.  While the head's
    delta is zero the head is detached, its callback is invoked with its
    parameter, and the next node becomes the head. *)
Fixpoint fire_expired (q : vtlist) : list invocation * vtlist :=
  match q with
  | [] => ([], [])
  | t :: rest =>
      if vt_delta t =? 0 then
        let (fired, q') := fire_expired rest in (invoke t :: fired, q')
      else ([], q)
  end.

(** Modelled from the spec: the tick advance, which no prototype of the
    header exposes.  The head's delta is decremented by one tick, then the
    expired timers are fired. *)
Definition tick (q : vtlist) : list invocation * vtlist :=
  match q with
  | [] => ([], [])
  | t :: rest =>
      fire_expired (set_delta (sub_in systime_t (vt_delta t) 1) t :: rest)
  end.

(** What happens to the queue over time: calls of the two system calls,
    and ticks. *)
Inductive op : Type :=
| SetTimer (vtp delay func par : Z)
| ResetTimer (vtp : Z)
| Tick.

Definition step (o : op) (q : vtlist) : list invocation * vtlist :=
  match o with
  | SetTimer vtp delay func par => ([], setTimer vtp delay func par q)
  | ResetTimer vtp => ([], resetTimer vtp q)
  | Tick => tick q
  end.

(** Runs a history from a queue: the callbacks invoked, in order, and the
    queue left. *)
Fixpoint run (ops : list op) (q : vtlist) : list invocation * vtlist :=
  match ops with
  | [] => ([], q)
  | o :: rest =>
      let (fired, q1) := step o q in
      let (fired', q2) := run rest q1 in
      (fired ++ fired', q2)
  end.

(** Number of ticks in a history. *)
Fixpoint ticks (ops : list op) : Z :=
  match ops with
  | [] => 0
  | Tick :: rest => 1 + ticks rest
  | _ :: rest => ticks rest
  end.

(** A [setTimer] call of the history passes a delay of at least one tick
    that fits [systime_t]. *)
Definition delay_ok (o : op) : bool :=
  match o with
  | SetTimer _ delay _ _ => (1 <=? delay) && (delay <=? max_value systime_t)
  | _ => true
  end.

(** The operation is a system call on the timer at [vtp]. *)
Definition mentions (vtp : Z) (o : op) : bool :=
  match o with
  | SetTimer v _ _ _ => v =? vtp
  | ResetTimer v => v =? vtp
  | Tick => false
  end.

(** The operation is a system call on neither of the two timers. *)
Definition quiet (a b : Z) (o : op) : bool :=
  negb (mentions a o || mentions b o).

(** The invocation is a callback of timer [a] or of timer [b]. *)
Definition of_either (a b : Z) (i : invocation) : bool :=
  (inv_timer i =? a) || (inv_timer i =? b).

(** Ticks left until the timer at [vtp] expires: the sum of the deltas from
    the head up to its node; [None] when it is not armed. *)
Fixpoint remaining (vtp : Z) (q : vtlist) : option Z :=
  match q with
  | [] => None
  | t :: rest =>
      if vt_addr t =? vtp then Some (vt_delta t)
      else option_map (Z.add (vt_delta t)) (remaining vtp rest)
  end.

(** Sum of all the deltas: the ticks left until the last timer expires. *)
Fixpoint total (q : vtlist) : Z :=
  match q with
  | [] => 0
  | t :: rest => vt_delta t + total rest
  end.

(** The queue invariant: every armed timer is linked once, deltas are not
    negative, the last deadline fits [systime_t], and between ticks the
    head has at least one tick to go. *)
Definition nonneg (q : vtlist) : Prop :=
  Forall (fun t => 0 <= vt_delta t) q.

Definition wf (q : vtlist) : Prop :=
  NoDup (map vt_addr q) /\
  nonneg q /\
  total q <= max_value systime_t /\
  match q with [] => True | t :: _ => 1 <= vt_delta t end.

End VT.

(* ================================================================== *)
(** ** Facts about the types *)

Import CTypes Conv VT.

Lemma cast_u32 (v : Z) : cast (Tuint 32) v = v mod 4294967296.
Proof. reflexivity. Qed.

Lemma max_value_u32 : max_value (Tuint 32) = 4294967295.
Proof. reflexivity. Qed.

(** Unfolds the macros down to [mod 4294967296]. *)
Ltac conv_unfold :=
  unfold S2ST, MS2ST, US2ST, ST2S, ST2MS, ST2US, ST_to_ms_back,
    umul, uadd, usub, udiv, mul_in, add_in, sub_in, div_in, in_range,
    systime_t, tprio_t, msg_t, uint32_t, unsigned_long,
    CH_CFG_ST_FREQUENCY in *;
  rewrite ?cast_u32, ?max_value_u32 in *.

(** Closes a goal about the unfolded macros: quotients and remainders by
    constants become linear constraints. *)
Ltac conv_solve := conv_unfold; Z.div_mod_to_equations; lia.

(** C6: [thread_t] is a fixed-size descriptor of exactly 64 bytes: the
    layout of its declaration, one array of 64 [uint8_t] with byte
    alignment and no padding, gives [sizeof(thread_t) = 64]. *)
Theorem thread_t_is_64_bytes :
  sizeof thread_t = 64 /\ alignof thread_t = 1.
Proof. split; reflexivity. Qed.

(** The timer descriptor, for comparison: five 4-byte members. *)
Example virtual_timer_t_is_20_bytes : sizeof virtual_timer_t = 20.
Proof. reflexivity. Qed.

(** C8: [tprio_t], [msg_t] and [systime_t] are aliases of [uint32_t]: each
    is that type, so its values are exactly 0 .. 2^32 - 1 and its sums,
    differences and products are taken modulo 2^32. *)
Theorem kernel_integer_types_are_uint32 :
  tprio_t = uint32_t /\ msg_t = uint32_t /\ systime_t = uint32_t /\
  Forall (fun t =>
            sizeof t = 4 /\
            (forall v, in_range t v <-> 0 <= v <= 2 ^ 32 - 1) /\
            (forall a b,
                add_in t a b = (a + b) mod 2 ^ 32 /\
                sub_in t a b = (a - b) mod 2 ^ 32 /\
                mul_in t a b = (a * b) mod 2 ^ 32 /\
                in_range t (add_in t a b) /\
                in_range t (sub_in t a b) /\
                in_range t (mul_in t a b)))
         [tprio_t; msg_t; systime_t].
Proof.
  repeat split; try reflexivity.
  repeat constructor; try reflexivity; conv_unfold;
    try tauto; try apply Z.mod_pos_bound; try lia;
    match goal with
    | |- ?x mod ?m <= _ => pose proof (Z.mod_pos_bound x m); lia
    end.
Qed.

(* ================================================================== *)
(** ** Facts about the conversion macros *)

Lemma ceil_div_formula (a b : Z) : 0 < b -> ceil_div a b = (a + b - 1) / b.
Proof.
  intros Hb. unfold ceil_div, Qceiling, Qfloor.
  destruct b as [|p|p]; try lia.
  cbn [inject_Z Qdiv Qinv Qmult Qnum Qden Qopp].
  rewrite Z.mul_1_r, Pos.mul_1_l.
  Z.div_mod_to_equations. nia.
Qed.

(** [ceil_div a b] is the least integer that is at least [a / b]. *)
Lemma ceil_div_least (a b : Z) :
  0 < b -> a <= ceil_div a b * b /\ (ceil_div a b - 1) * b < a.
Proof.
  intros Hb. rewrite ceil_div_formula by assumption.
  Z.div_mod_to_equations. nia.
Qed.

(** C7: the tick frequency constant is 100, and each of the six macros has
    it as its frequency factor: the three forward macros multiply by 100,
    the three reverse macros add 100 - 1 and divide by 100. *)
Theorem macros_use_tick_frequency_100 :
  CH_CFG_ST_FREQUENCY = 100 /\
  forall x : Z,
    S2ST x = ((x mod 2 ^ 32 * 100) mod 2 ^ 32) mod 2 ^ 32 /\
    MS2ST x =
      ((((x mod 2 ^ 32 * 100) mod 2 ^ 32 + 999) mod 2 ^ 32 / 1000)
         mod 2 ^ 32) mod 2 ^ 32 /\
    US2ST x =
      ((((x mod 2 ^ 32 * 100) mod 2 ^ 32 + 999999) mod 2 ^ 32 / 1000000)
         mod 2 ^ 32) mod 2 ^ 32 /\
    ST2S x = (((x + 100) mod 2 ^ 32 - 1) mod 2 ^ 32 / 100) mod 2 ^ 32 /\
    ST2MS x =
      ((((x * 1000) mod 2 ^ 32 + 100) mod 2 ^ 32 - 1) mod 2 ^ 32 / 100)
        mod 2 ^ 32 /\
    ST2US x =
      ((((x * 1000000) mod 2 ^ 32 + 100) mod 2 ^ 32 - 1) mod 2 ^ 32 / 100)
        mod 2 ^ 32.
Proof.
  split; [reflexivity|]. intros x. repeat split; reflexivity.
Qed.

(** C4: at the 100 Hz tick frequency, [MS2ST(15)] is exactly 2 ticks. *)
Theorem MS2ST_15_is_2_ticks :
  CH_CFG_ST_FREQUENCY = 100 /\ MS2ST 15 = 2.
Proof. split; reflexivity. Qed.

(** C2: where the macro's numerator fits 32 bits, the forward conversions
    are the exact ceiling: [S2ST(sec) = sec * 100],
    [MS2ST(ms) = ceil(ms * 100 / 1000)] and
    [US2ST(us) = ceil(us * 100 / 1000000)]; and [MS2ST(1) = 1]. *)
Theorem forward_conversions_exact_ceiling (sec ms us : Z) :
  0 <= sec -> sec * 100 <= max_value uint32_t ->
  0 <= ms -> ms * 100 + 999 <= max_value uint32_t ->
  0 <= us -> us * 100 + 999999 <= max_value uint32_t ->
  S2ST sec = sec * 100 /\
  MS2ST ms = ceil_div (ms * 100) 1000 /\
  US2ST us = ceil_div (us * 100) 1000000 /\
  MS2ST 1 = 1.
Proof.
  intros Hs Hs' Hm Hm' Hu Hu'.
  rewrite !ceil_div_formula by lia.
  repeat split; try reflexivity; conv_solve.
Qed.

Lemma forward_conversions_exact_ceiling_witness :
  S2ST 3 = 3 * 100 /\
  MS2ST 15 = ceil_div (15 * 100) 1000 /\
  US2ST 12345 = ceil_div (12345 * 100) 1000000 /\
  MS2ST 1 = 1.
Proof.
  apply (forward_conversions_exact_ceiling 3 15 12345);
    vm_compute; discriminate.
Defined.

(** C3: where the macro's numerator fits 32 bits, the reverse conversions
    are the exact ceiling: [ST2S(n) = ceil(n / 100)],
    [ST2MS(n) = ceil(n * 1000 / 100)] and
    [ST2US(n) = ceil(n * 1000000 / 100)]. *)
Theorem reverse_conversions_exact_ceiling (ns nms nus : Z) :
  0 <= ns -> ns + 100 - 1 <= max_value uint32_t ->
  0 <= nms -> nms * 1000 + 100 - 1 <= max_value uint32_t ->
  0 <= nus -> nus * 1000000 + 100 - 1 <= max_value uint32_t ->
  ST2S ns = ceil_div ns CH_CFG_ST_FREQUENCY /\
  ST2MS nms = ceil_div (nms * 1000) CH_CFG_ST_FREQUENCY /\
  ST2US nus = ceil_div (nus * 1000000) CH_CFG_ST_FREQUENCY.
Proof.
  intros Hs Hs' Hm Hm' Hu Hu'.
  rewrite !ceil_div_formula by reflexivity.
  repeat split; conv_solve.
Qed.

Lemma reverse_conversions_exact_ceiling_witness :
  ST2S 250 = ceil_div 250 CH_CFG_ST_FREQUENCY /\
  ST2MS 7 = ceil_div (7 * 1000) CH_CFG_ST_FREQUENCY /\
  ST2US 7 = ceil_div (7 * 1000000) CH_CFG_ST_FREQUENCY.
Proof.
  apply (reverse_conversions_exact_ceiling 250 7 7);
    vm_compute; discriminate.
Defined.

(** The tick count of [MS2ST] never exceeds [(2^32 - 1) / 1000]. *)
Lemma MS2ST_upper (ms : Z) : 0 <= MS2ST ms <= 4294967.
Proof. conv_solve. Qed.

(** C1, as stated, fails: 42949673 is a [uint32_t] value for which
    [ms * 100] wraps to 4, so [MS2ST] gives 1 tick, which converts back to
    10 ms. *)
Lemma MS2ST_ceiling_fails_on_wrap :
  in_range uint32_t 42949673 /\
  MS2ST 42949673 = 1 /\
  ST_to_ms_back (MS2ST 42949673) = 10 /\
  ~ (ST_to_ms_back (MS2ST 42949673) >= 42949673).
Proof.
  repeat split; try (vm_compute; discriminate).
  vm_compute. intros H. apply H. reflexivity.
Qed.

(** C1, amended: for a [uint32_t] value [ms],
    [MS2ST(ms) * 1000 / FREQUENCY >= ms] holds exactly when the numerator
    [ms * 100 + 999] of [MS2ST] fits 32 bits, that is for
    [ms <= 42949662]. *)
Theorem MS2ST_ceiling_iff_no_wrap (ms : Z) :
  in_range uint32_t ms ->
  (ST_to_ms_back (MS2ST ms) >= ms <-> ms * 100 + 999 <= max_value uint32_t).
Proof.
  intros Hr. split.
  - intros Hge.
    pose proof (MS2ST_upper ms) as Hup.
    assert (Hback : ST_to_ms_back (MS2ST ms) <= 42949670).
    { revert Hup. generalize (MS2ST ms). intros t Ht. conv_solve. }
    assert (Hms : ms <= 42949670) by lia.
    clear Hup Hback. revert Hge. conv_unfold. intros Hge.
    destruct (Z_le_gt_dec ms 42949662) as [Hle|Hgt]; [lia|].
    exfalso.
    assert (Hcases : ms = 42949663 \/ ms = 42949664 \/ ms = 42949665 \/
                     ms = 42949666 \/ ms = 42949667 \/ ms = 42949668 \/
                     ms = 42949669 \/ ms = 42949670) by lia.
    clear Hr Hms Hgt.
    repeat (destruct Hcases as [Hc|Hcases]; [subst ms; vm_compute in Hge;
                                              apply Hge; reflexivity|]).
    subst ms. vm_compute in Hge. apply Hge. reflexivity.
  - intros Hfit. conv_solve.
Qed.

Lemma MS2ST_ceiling_iff_no_wrap_witness :
  in_range uint32_t 15 /\
  (ST_to_ms_back (MS2ST 15) >= 15 <-> 15 * 100 + 999 <= max_value uint32_t).
Proof.
  split; [vm_compute; split; discriminate|].
  apply (MS2ST_ceiling_iff_no_wrap 15). vm_compute; split; discriminate.
Defined.

(** C9, as stated, fails: [sec = 42949672] satisfies [sec * 100 < 2^32],
    but the [+ 100] of [ST2S] wraps and the round trip gives 0. *)
Lemma seconds_round_trip_fails_at_top :
  42949672 * 100 < 2 ^ 32 /\
  S2ST 42949672 = 4294967200 /\
  ST2S (S2ST 42949672) = 0 /\
  ST2S (S2ST 42949672) <> 42949672.
Proof. repeat split; vm_compute; discriminate. Qed.

(** C9, amended: for [sec] with [sec * 100 < 2^32], the seconds round trip
    [ST2S(S2ST(sec)) = sec] holds exactly when the numerator
    [sec * 100 + 100 - 1] of [ST2S] fits 32 bits as well, that is for
    [sec <= 42949671]. *)
Theorem seconds_round_trip_iff_no_wrap (sec : Z) :
  0 <= sec -> sec * 100 <= max_value uint32_t ->
  (ST2S (S2ST sec) = sec <-> sec * 100 + 100 - 1 <= max_value uint32_t).
Proof.
  intros Hs Hfit. change (max_value uint32_t) with 4294967295 in *. split.
  - intros Hrt.
    destruct (Z_le_gt_dec sec 42949671) as [Hle|Hgt]; [lia|].
    assert (Htop : sec = 42949672) by lia.
    subst sec. vm_compute in Hrt. discriminate Hrt.
  - intros Hfit'. conv_solve.
Qed.

Lemma seconds_round_trip_iff_no_wrap_witness :
  ST2S (S2ST 3) = 3 <-> 3 * 100 + 100 - 1 <= max_value uint32_t.
Proof.
  apply (seconds_round_trip_iff_no_wrap 3); vm_compute; discriminate.
Defined.

(** C10: for every tick count [n] with [n * 1000 < 2^32],
    [ST2MS(n) = 10 * n]: the conversion never rounds. *)
Theorem ST2MS_is_ten_times (n : Z) :
  0 <= n -> n * 1000 < 2 ^ 32 -> ST2MS n = 10 * n.
Proof. intros Hn Hfit. conv_solve. Qed.

Lemma ST2MS_is_ten_times_witness :
  ST2MS 4294967 = 10 * 4294967.
Proof.
  apply (ST2MS_is_ten_times 4294967); vm_compute;
    first [discriminate | reflexivity].
Defined.

(* ================================================================== *)
(** ** Further facts about the conversion macros *)

(** *** Closed forms where nothing wraps *)

Lemma S2ST_exact (sec : Z) :
  0 <= sec -> sec * 100 <= 4294967295 -> S2ST sec = sec * 100.
Proof. intros. conv_solve. Qed.

Lemma MS2ST_exact (ms : Z) :
  0 <= ms -> ms * 100 + 999 <= 4294967295 ->
  MS2ST ms = (ms * 100 + 999) / 1000.
Proof. intros. conv_solve. Qed.

Lemma US2ST_exact (us : Z) :
  0 <= us -> us * 100 + 999999 <= 4294967295 ->
  US2ST us = (us * 100 + 999999) / 1000000.
Proof. intros. conv_solve. Qed.

Lemma ST2S_exact (n : Z) :
  0 <= n -> n + 99 <= 4294967295 -> ST2S n = (n + 99) / 100.
Proof. intros. conv_solve. Qed.

Lemma ST2MS_exact (n : Z) :
  0 <= n -> n * 1000 + 99 <= 4294967295 -> ST2MS n = 10 * n.
Proof. intros. conv_solve. Qed.

Lemma ST2US_exact (n : Z) :
  0 <= n -> n * 1000000 + 99 <= 4294967295 -> ST2US n = 10000 * n.
Proof. intros. conv_solve. Qed.

(** Rewrites with the closed forms and leaves linear arithmetic over
    quotients by constants. *)
Ltac exact_solve :=
  change (max_value uint32_t) with 4294967295 in *;
  repeat first
    [ rewrite S2ST_exact by (Z.div_mod_to_equations; lia)
    | rewrite MS2ST_exact by (Z.div_mod_to_equations; lia)
    | rewrite US2ST_exact by (Z.div_mod_to_equations; lia)
    | rewrite ST2S_exact by (Z.div_mod_to_equations; lia)
    | rewrite ST2MS_exact by (Z.div_mod_to_equations; lia)
    | rewrite ST2US_exact by (Z.div_mod_to_equations; lia) ];
  Z.div_mod_to_equations; lia.

(** *** Limits of the results *)


(** The forward macros read their argument through a [uint32_t] cast and
    multiply by 100 modulo 2^32, so they repeat with period 2^30: a delay
    and the same delay plus 2^30 units give the same tick count. *)
Theorem forward_conversions_period (x : Z) :
  S2ST (x + 2 ^ 30) = S2ST x /\
  MS2ST (x + 2 ^ 30) = MS2ST x /\
  US2ST (x + 2 ^ 30) = US2ST x.
Proof.
  assert (H : ((x + 2 ^ 30) mod 4294967296 * 100) mod 4294967296
              = (x mod 4294967296 * 100) mod 4294967296)
    by (Z.div_mod_to_equations; lia).
  conv_unfold. change (100 mod 4294967296) with 100.
  rewrite H. repeat split; reflexivity.
Qed.

(** [S2ST] is additive modulo 2^32, for all arguments. *)
Theorem S2ST_additive (a b : Z) :
  S2ST (a + b) = (S2ST a + S2ST b) mod 2 ^ 32.
Proof. conv_solve. Qed.

(** *** Requested delays *)

(** Where the numerator fits 32 bits, a delay that is not zero is at least
    one tick. *)
Theorem positive_delay_is_at_least_one_tick (sec ms us : Z) :
  0 < sec -> sec * 100 <= max_value uint32_t ->
  0 < ms -> ms * 100 + 999 <= max_value uint32_t ->
  0 < us -> us * 100 + 999999 <= max_value uint32_t ->
  1 <= S2ST sec /\ 1 <= MS2ST ms /\ 1 <= US2ST us.
Proof. intros. repeat split; exact_solve. Qed.

Lemma positive_delay_is_at_least_one_tick_witness :
  1 <= S2ST 1 /\ 1 <= MS2ST 1 /\ 1 <= US2ST 1.
Proof.
  apply (positive_delay_is_at_least_one_tick 1 1 1); vm_compute;
    first [reflexivity | discriminate].
Defined.

(** Where the numerator of the larger argument fits 32 bits, the forward
    conversions are monotone: a longer delay never gives fewer ticks. *)
Theorem forward_conversions_monotone (x y : Z) :
  0 <= x <= y ->
  (y * 100 <= max_value uint32_t -> S2ST x <= S2ST y) /\
  (y * 100 + 999 <= max_value uint32_t -> MS2ST x <= MS2ST y) /\
  (y * 100 + 999999 <= max_value uint32_t -> US2ST x <= US2ST y).
Proof. intros Hxy. repeat split; intros Hy; exact_solve. Qed.

Lemma forward_conversions_monotone_witness :
  S2ST 11 <= S2ST 12 /\ MS2ST 11 <= MS2ST 12 /\ US2ST 11 <= US2ST 12.
Proof.
  destruct (forward_conversions_monotone 11 12) as (Hs & Hms & Hus);
    [split; discriminate|].
  split; [apply Hs|split; [apply Hms|apply Hus]]; vm_compute; discriminate.
Defined.

(** Where the numerator of the larger argument fits 32 bits, the reverse
    conversions are monotone as well. *)
Theorem reverse_conversions_monotone (m n : Z) :
  0 <= m <= n ->
  (n + 100 - 1 <= max_value uint32_t -> ST2S m <= ST2S n) /\
  (n * 1000 + 100 - 1 <= max_value uint32_t -> ST2MS m <= ST2MS n) /\
  (n * 1000000 + 100 - 1 <= max_value uint32_t -> ST2US m <= ST2US n).
Proof. intros Hmn. repeat split; intros Hn; exact_solve. Qed.

Lemma reverse_conversions_monotone_witness :
  ST2S 11 <= ST2S 250 /\ ST2MS 11 <= ST2MS 250 /\ ST2US 11 <= ST2US 250.
Proof.
  destruct (reverse_conversions_monotone 11 250) as (Hs & Hms & Hus);
    [split; discriminate|].
  split; [apply Hs|split; [apply Hms|apply Hus]]; vm_compute; discriminate.
Defined.

(** A delay split in two costs at most one tick more than the whole:
    [MS2ST (a + b) <= MS2ST a + MS2ST b <= MS2ST (a + b) + 1], and the same
    for [US2ST]. *)
Theorem split_delay_costs_at_most_one_tick (a b : Z) :
  0 <= a -> 0 <= b ->
  ((a + b) * 100 + 999 <= max_value uint32_t ->
   MS2ST (a + b) <= MS2ST a + MS2ST b <= MS2ST (a + b) + 1) /\
  ((a + b) * 100 + 999999 <= max_value uint32_t ->
   US2ST (a + b) <= US2ST a + US2ST b <= US2ST (a + b) + 1).
Proof. intros Ha Hb. split; intros Hfit; exact_solve. Qed.

Lemma split_delay_costs_at_most_one_tick_witness :
  (MS2ST (5 + 5) <= MS2ST 5 + MS2ST 5 <= MS2ST (5 + 5) + 1) /\
  (US2ST (5 + 5) <= US2ST 5 + US2ST 5 <= US2ST (5 + 5) + 1).
Proof.
  destruct (split_delay_costs_at_most_one_tick 5 5) as [Hms Hus];
    [discriminate|discriminate|].
  split; [apply Hms|apply Hus]; vm_compute; discriminate.
Defined.

(** The units agree: a whole number of seconds written in milliseconds, or
    a whole number of milliseconds written in microseconds, converts to the
    same tick count. *)
Theorem forward_conversions_agree_across_units (sec ms : Z) :
  0 <= sec -> sec * 1000 * 100 + 999 <= max_value uint32_t ->
  0 <= ms -> ms * 1000 * 100 + 999999 <= max_value uint32_t ->
  MS2ST (sec * 1000) = S2ST sec /\ US2ST (ms * 1000) = MS2ST ms.
Proof. intros. split; exact_solve. Qed.

Lemma forward_conversions_agree_across_units_witness :
  MS2ST (3 * 1000) = S2ST 3 /\ US2ST (15 * 1000) = MS2ST 15.
Proof.
  apply (forward_conversions_agree_across_units 3 15);
    vm_compute; discriminate.
Defined.

(** *** Round trips *)

(** A millisecond delay converted to ticks and back covers the request and
    overshoots by less than one tick period: the result is the next
    multiple of 10 ms. *)
Theorem ms_round_trip_covers_request (ms : Z) :
  0 <= ms -> ms * 100 + 999 <= max_value uint32_t ->
  ms <= ST2MS (MS2ST ms) < ms + 10 /\ ST2MS (MS2ST ms) mod 10 = 0.
Proof. intros. split; exact_solve. Qed.

Lemma ms_round_trip_covers_request_witness :
  15 <= ST2MS (MS2ST 15) < 15 + 10 /\ ST2MS (MS2ST 15) mod 10 = 0.
Proof.
  apply (ms_round_trip_covers_request 15); vm_compute; discriminate.
Defined.

(** The same for microseconds: the result is the next multiple of
    10000 us. *)
Theorem us_round_trip_covers_request (us : Z) :
  0 <= us -> us * 100 + 999999 <= max_value uint32_t ->
  us <= ST2US (US2ST us) < us + 10000 /\ ST2US (US2ST us) mod 10000 = 0.
Proof. intros. split; exact_solve. Qed.

Lemma us_round_trip_covers_request_witness :
  12345 <= ST2US (US2ST 12345) < 12345 + 10000 /\
  ST2US (US2ST 12345) mod 10000 = 0.
Proof.
  apply (us_round_trip_covers_request 12345); vm_compute; discriminate.
Defined.

(** A tick count converted to seconds and back is the next multiple of
    100 ticks. *)
Theorem ticks_round_trip_through_seconds (n : Z) :
  0 <= n -> n + 100 - 1 <= max_value uint32_t ->
  n <= S2ST (ST2S n) < n + 100 /\ S2ST (ST2S n) mod 100 = 0.
Proof. intros. split; exact_solve. Qed.

Lemma ticks_round_trip_through_seconds_witness :
  250 <= S2ST (ST2S 250) < 250 + 100 /\ S2ST (ST2S 250) mod 100 = 0.
Proof.
  apply (ticks_round_trip_through_seconds 250); vm_compute; discriminate.
Defined.

(** For a tick count that [ST2MS] converts without wrapping, going to
    milliseconds and back is the identity exactly when the numerator of
    [MS2ST] fits too, that is up to 4294966 ticks. *)
Theorem ticks_round_trip_through_ms (n : Z) :
  0 <= n -> n * 1000 <= max_value uint32_t ->
  (MS2ST (ST2MS n) = n <-> n * 1000 + 999 <= max_value uint32_t).
Proof.
  intros Hn Hfit. change (max_value uint32_t) with 4294967295 in *. split.
  - intros Hrt. destruct (Z_le_gt_dec n 4294966) as [Hle|Hgt]; [lia|].
    assert (Htop : n = 4294967) by lia.
    subst n. vm_compute in Hrt. discriminate Hrt.
  - intros Hfit'. exact_solve.
Qed.

Lemma ticks_round_trip_through_ms_witness :
  MS2ST (ST2MS 2) = 2 <-> 2 * 1000 + 999 <= max_value uint32_t.
Proof.
  apply (ticks_round_trip_through_ms 2); vm_compute; discriminate.
Defined.

(** [ST2US] never rounds either: without wrapping it is 10000 us per
    tick, and going to microseconds and back is the identity. *)
Theorem ticks_round_trip_through_us (n : Z) :
  0 <= n -> n * 1000000 + 999999 <= max_value uint32_t ->
  ST2US n = 10000 * n /\ US2ST (ST2US n) = n.
Proof. intros. split; exact_solve. Qed.

Lemma ticks_round_trip_through_us_witness :
  ST2US 2 = 10000 * 2 /\ US2ST (ST2US 2) = 2.
Proof.
  apply (ticks_round_trip_through_us 2); vm_compute; discriminate.
Defined.

(** *** Forward and reverse conversions are adjoint *)



(** *** Layout of the timer descriptor *)

(** [struct ch_virtual_timer] is five 4-byte members with no padding:
    [vt_next] at offset 0, [vt_prev] at 4, [vt_delta] at 8, [vt_func] at
    12 and [vt_par] at 16, 20 bytes in all with 4-byte alignment. *)
Theorem virtual_timer_t_layout :
  field_offsets [Tpointer; Tpointer; systime_t; vtfunc_t; Tpointer] 0
    = [0; 4; 8; 12; 16] /\
  sizeof virtual_timer_t = 20 /\
  alignof virtual_timer_t = 4.
Proof. repeat split; reflexivity. Qed.

(* ================================================================== *)
(** ** Facts about the virtual timer queue *)

(** *** Callbacks fire in queue order *)

(** A value that fits [systime_t] is unchanged by the conversion. *)
Lemma cast_systime_small (v : Z) :
  0 <= v <= max_value systime_t -> cast systime_t v = v.
Proof. intros Hv. apply Z.mod_small. change (max_value systime_t) with 4294967295 in Hv. lia. Qed.

Section Events.
Variable P : invocation -> bool.

(** Cancelling a timer removes none of the callbacks selected by [P] when
    [P] selects no callback of that timer. *)
Lemma resetTimer_filter (vtp : Z) (q : vtlist) :
  (forall i, inv_timer i = vtp -> P i = false) ->
  filter P (map invoke (resetTimer vtp q)) = filter P (map invoke q).
Proof.
  intros HP. induction q as [|t rest IH]; [reflexivity|].
  cbn [resetTimer]. destruct (Z.eqb_spec (vt_addr t) vtp) as [Heq|Hne].
  - cbn [map filter]. rewrite (HP (invoke t) Heq).
    destruct rest as [|n rest']; reflexivity.
  - cbn [map filter]. rewrite IH. reflexivity.
Qed.

(** The walk links the new timer somewhere into the queue and leaves the
    order of the others as it was. *)
Lemma vt_insert_events (vtp delay func par : Z) (q : vtlist) :
  exists l1 l2,
    map invoke q = l1 ++ l2 /\
    map invoke (vt_insert vtp delay func par q)
      = l1 ++ mk_inv vtp func par :: l2.
Proof.
  revert delay. induction q as [|p rest IH]; intros delay.
  - exists [], []. split; reflexivity.
  - cbn [vt_insert]. destruct (vt_delta p <=? delay).
    + destruct (IH (sub_in systime_t delay (vt_delta p))) as (l1 & l2 & H1 & H2).
      exists (invoke p :: l1), l2. cbn [map]. rewrite H1, H2. split; reflexivity.
    + exists [], (invoke p :: map invoke rest). split; reflexivity.
Qed.

Lemma vt_insert_filter (vtp delay func par : Z) (q : vtlist) :
  P (mk_inv vtp func par) = false ->
  filter P (map invoke (vt_insert vtp delay func par q))
    = filter P (map invoke q).
Proof.
  intros HP.
  destruct (vt_insert_events vtp delay func par q) as (l1 & l2 & H1 & H2).
  rewrite H1, H2, !filter_app. cbn [filter]. rewrite HP. reflexivity.
Qed.

End Events.

(** The tick handler detaches a prefix of the queue and fires it in queue
    order. *)
Lemma fire_expired_events (q : vtlist) :
  fst (fire_expired q) ++ map invoke (snd (fire_expired q)) = map invoke q.
Proof.
  induction q as [|t rest IH]; [reflexivity|].
  cbn [fire_expired]. destruct (vt_delta t =? 0); [|reflexivity].
  destruct (fire_expired rest) as [fired q']. cbn [fst snd] in *.
  cbn [map app]. rewrite IH. reflexivity.
Qed.

Lemma tick_events (q : vtlist) :
  fst (tick q) ++ map invoke (snd (tick q)) = map invoke q.
Proof.
  destruct q as [|t rest]; [reflexivity|].
  unfold tick. rewrite fire_expired_events. reflexivity.
Qed.

Lemma of_either_timer (a b : Z) (i : invocation) :
  inv_timer i <> a -> inv_timer i <> b -> of_either a b i = false.
Proof.
  intros Ha Hb. unfold of_either.
  destruct (Z.eqb_spec (inv_timer i) a), (Z.eqb_spec (inv_timer i) b);
    try contradiction; reflexivity.
Qed.

Lemma step_events (a b : Z) (o : op) (q : vtlist) :
  mentions a o || mentions b o = false ->
  filter (of_either a b) (fst (step o q) ++ map invoke (snd (step o q)))
    = filter (of_either a b) (map invoke q).
Proof.
  intros Hm. apply orb_false_elim in Hm. destruct Hm as [Ha Hb].
  destruct o as [vtp delay func par|vtp|]; cbn [step fst snd app mentions] in *.
  - apply Z.eqb_neq in Ha, Hb. unfold setTimer.
    rewrite vt_insert_filter by (apply of_either_timer; assumption).
    apply resetTimer_filter. intros i Hi. apply of_either_timer; congruence.
  - apply Z.eqb_neq in Ha, Hb.
    apply resetTimer_filter. intros i Hi. apply of_either_timer; congruence.
  - rewrite tick_events. reflexivity.
Qed.

(** Over a history that leaves timers [a] and [b] alone, their callbacks
    fired so far followed by those still queued stay the same sequence. *)
Lemma run_events (a b : Z) (ops : list op) (q : vtlist) :
  forallb (quiet a b) ops = true ->
  filter (of_either a b) (fst (run ops q) ++ map invoke (snd (run ops q)))
    = filter (of_either a b) (map invoke q).
Proof.
  revert q. induction ops as [|o rest IH]; intros q Hq; [reflexivity|].
  cbn [forallb] in Hq. apply andb_prop in Hq. destruct Hq as [Ho Hrest].
  apply negb_true_iff in Ho.
  cbn [run]. pose proof (step_events a b o q Ho) as Hs.
  destruct (step o q) as [f1 q1]. specialize (IH q1 Hrest).
  destruct (run rest q1) as [f2 q2]. cbn [fst snd] in *.
  rewrite <- Hs, <- app_assoc, !filter_app in *. rewrite IH. reflexivity.
Qed.

(** *** The queue invariant is kept by every operation *)

Lemma total_nonneg (q : vtlist) : nonneg q -> 0 <= total q.
Proof.
  induction 1 as [|t rest Ht _ IH]; cbn [total]; lia.
Qed.

Lemma resetTimer_addrs (vtp x : Z) (q : vtlist) :
  In x (map vt_addr (resetTimer vtp q)) -> In x (map vt_addr q).
Proof.
  induction q as [|t rest IH]; [intros []|].
  cbn [resetTimer]. destruct (vt_addr t =? vtp).
  - destruct rest as [|n rest']; [intros []|]. intros H. right. exact H.
  - cbn [map In]. intros [H|H]; [left; exact H|right; exact (IH H)].
Qed.

Lemma resetTimer_NoDup (vtp : Z) (q : vtlist) :
  NoDup (map vt_addr q) -> NoDup (map vt_addr (resetTimer vtp q)).
Proof.
  induction q as [|t rest IH]; intros Hnd; [exact Hnd|].
  cbn [map] in Hnd. inversion Hnd as [|? ? Hnotin Hrest]; subst.
  cbn [resetTimer]. destruct (vt_addr t =? vtp).
  - destruct rest as [|n rest']; [constructor|exact Hrest].
  - cbn [map]. constructor; [|exact (IH Hrest)].
    intros Hin. apply Hnotin. exact (resetTimer_addrs _ _ _ Hin).
Qed.

(** After [resetTimer] the timer is not armed. *)
Lemma resetTimer_detaches (vtp : Z) (q : vtlist) :
  NoDup (map vt_addr q) -> ~ In vtp (map vt_addr (resetTimer vtp q)).
Proof.
  induction q as [|t rest IH]; intros Hnd; [intros []|].
  cbn [map] in Hnd. inversion Hnd as [|? ? Hnotin Hrest]; subst.
  cbn [resetTimer]. destruct (Z.eqb_spec (vt_addr t) vtp) as [Heq|Hne].
  - subst vtp. destruct rest as [|n rest']; [intros []|exact Hnotin].
  - cbn [map In]. intros [H|H]; [contradiction|exact (IH Hrest H)].
Qed.

(** Cancelling keeps the deadlines of the timers behind: no delta goes
    negative and the last deadline does not grow. *)
Lemma resetTimer_total (vtp : Z) (q : vtlist) :
  nonneg q -> total q <= max_value systime_t ->
  nonneg (resetTimer vtp q) /\ total (resetTimer vtp q) <= total q.
Proof.
  induction q as [|t rest IH]; intros Hnn Htot; [split; [exact Hnn|cbn; lia]|].
  inversion Hnn as [|? ? Ht Hrest]; subst.
  pose proof (total_nonneg rest Hrest) as Hrest0.
  cbn [total] in Htot. cbn [resetTimer].
  destruct (vt_addr t =? vtp).
  - destruct rest as [|n rest']; [split; [constructor|cbn [total]; lia]|].
    inversion Hrest as [|? ? Hn Hrest']; subst.
    pose proof (total_nonneg rest' Hrest') as Hrest'0.
    cbn [total] in *. unfold add_in.
    rewrite cast_systime_small by lia.
    split; [constructor; [cbn; lia|exact Hrest']|cbn; lia].
  - destruct IH as [IH1 IH2]; [exact Hrest|lia|].
    split; [constructor; assumption|cbn [total]; lia].
Qed.

Lemma wf_resetTimer (vtp : Z) (q : vtlist) : wf q -> wf (resetTimer vtp q).
Proof.
  intros (Hnd & Hnn & Htot & Hhead).
  destruct (resetTimer_total vtp q Hnn Htot) as [Hnn' Htot'].
  repeat split; [apply resetTimer_NoDup; exact Hnd|exact Hnn'|lia|].
  destruct q as [|t rest]; [exact I|].
  cbn [resetTimer]. destruct (vt_addr t =? vtp); [|exact Hhead].
  destruct rest as [|n rest']; [exact I|].
  inversion Hnn as [|? ? Ht Hrest]; subst.
  inversion Hrest as [|? ? Hn Hrest']; subst.
  pose proof (total_nonneg rest' Hrest') as Hrest'0.
  cbn [total] in Htot. unfold add_in.
  rewrite cast_systime_small by lia. cbn. lia.
Qed.

Lemma vt_insert_addrs (vtp delay func par x : Z) (q : vtlist) :
  In x (map vt_addr (vt_insert vtp delay func par q)) ->
  x = vtp \/ In x (map vt_addr q).
Proof.
  revert delay. induction q as [|p rest IH]; intros delay.
  - cbn. intros [H|[]]. left. symmetry. exact H.
  - cbn [vt_insert]. destruct (vt_delta p <=? delay); cbn [map In].
    + intros [H|H]; [right; left; exact H|].
      destruct (IH _ H) as [H'|H']; [left; exact H'|right; right; exact H'].
    + cbn. intros [H|[H|H]]; [left; symmetry; exact H|right; left; exact H|
                              right; right; exact H].
Qed.

Lemma vt_insert_NoDup (vtp delay func par : Z) (q : vtlist) :
  NoDup (map vt_addr q) -> ~ In vtp (map vt_addr q) ->
  NoDup (map vt_addr (vt_insert vtp delay func par q)).
Proof.
  revert delay. induction q as [|p rest IH]; intros delay Hnd Hnotin.
  - cbn. constructor; [intros []|constructor].
  - cbn [map] in Hnd. inversion Hnd as [|? ? Hp Hrest]; subst.
    cbn [map In] in Hnotin.
    cbn [vt_insert]. destruct (vt_delta p <=? delay); cbn [map].
    + constructor; [|apply IH; [exact Hrest|tauto]].
      intros Hin. destruct (vt_insert_addrs _ _ _ _ _ _ Hin); [|contradiction].
      apply Hnotin. left. assumption.
    + cbn. constructor; [exact Hnotin|exact Hnd].
Qed.

(** After the walk the last deadline is the later of the new timer's and
    the old last one. *)
Lemma vt_insert_total (vtp delay func par : Z) (q : vtlist) :
  nonneg q -> total q <= max_value systime_t ->
  0 <= delay <= max_value systime_t ->
  nonneg (vt_insert vtp delay func par q) /\
  total (vt_insert vtp delay func par q) = Z.max delay (total q).
Proof.
  revert delay. induction q as [|p rest IH]; intros delay Hnn Htot Hd.
  - cbn. split; [constructor; [cbn; lia|constructor]|lia].
  - inversion Hnn as [|? ? Hp Hrest]; subst.
    pose proof (total_nonneg rest Hrest) as Hrest0.
    cbn [total] in Htot.
    cbn [vt_insert]. destruct (Z.leb_spec (vt_delta p) delay) as [Hle|Hgt];
      unfold sub_in; rewrite cast_systime_small by lia.
    + destruct (IH (delay - vt_delta p) Hrest) as [IH1 IH2]; [lia|lia|].
      split; [constructor; assumption|]. cbn [total]. rewrite IH2. lia.
    + split; [constructor; [cbn; lia|constructor; [cbn; lia|exact Hrest]]|].
      cbn. lia.
Qed.

Lemma wf_vt_insert (vtp delay func par : Z) (q : vtlist) :
  wf q -> ~ In vtp (map vt_addr q) ->
  1 <= delay <= max_value systime_t ->
  wf (vt_insert vtp delay func par q).
Proof.
  intros (Hnd & Hnn & Htot & Hhead) Hnotin Hd.
  destruct (vt_insert_total vtp delay func par q Hnn Htot) as [Hnn' Htot']; [lia|].
  repeat split; [apply vt_insert_NoDup; assumption|exact Hnn'|lia|].
  destruct q as [|p rest]; [cbn; lia|].
  cbn [vt_insert]. destruct (vt_delta p <=? delay); [exact Hhead|cbn; lia].
Qed.

Lemma wf_setTimer (vtp delay func par : Z) (q : vtlist) :
  wf q -> 1 <= delay <= max_value systime_t ->
  wf (setTimer vtp delay func par q).
Proof.
  intros Hwf Hd. unfold setTimer. rewrite cast_systime_small by lia.
  apply wf_vt_insert; [apply wf_resetTimer; exact Hwf| |exact Hd].
  apply resetTimer_detaches. apply Hwf.
Qed.

Lemma fire_expired_wf (q : vtlist) :
  NoDup (map vt_addr q) -> nonneg q ->
  NoDup (map vt_addr (snd (fire_expired q))) /\
  nonneg (snd (fire_expired q)) /\
  total (snd (fire_expired q)) <= total q /\
  match snd (fire_expired q) with [] => True | t :: _ => 1 <= vt_delta t end.
Proof.
  induction q as [|t rest IH]; intros Hnd Hnn.
  - cbn. repeat split; [constructor|constructor|lia].
  - cbn [map] in Hnd. inversion Hnd as [|? ? Hnotin Hrest]; subst.
    inversion Hnn as [|? ? Ht Hnnrest]; subst.
    cbn [fire_expired]. destruct (Z.eqb_spec (vt_delta t) 0) as [Hz|Hnz].
    + destruct (IH Hrest Hnnrest) as (I1 & I2 & I3 & I4).
      destruct (fire_expired rest) as [fired q']. cbn [fst snd total] in *.
      repeat split; [exact I1|exact I2|lia|exact I4].
    + cbn [snd]. repeat split; [exact Hnd|exact Hnn|lia|lia].
Qed.

Lemma wf_tick (q : vtlist) : wf q -> wf (snd (tick q)).
Proof.
  intros (Hnd & Hnn & Htot & Hhead).
  destruct q as [|t rest]; [cbn; repeat split; [constructor|constructor|cbn; lia]|].
  inversion Hnn as [|? ? Ht Hnnrest]; subst.
  unfold tick, sub_in. cbn [total] in Htot.
  pose proof (total_nonneg rest Hnnrest) as Hrest0.
  rewrite cast_systime_small by lia.
  destruct (fire_expired_wf (set_delta (vt_delta t - 1) t :: rest))
    as (I1 & I2 & I3 & I4).
  - exact Hnd.
  - constructor; [cbn; lia|exact Hnnrest].
  - cbn [total set_delta vt_delta] in I3.
    repeat split; [exact I1|exact I2|lia|exact I4].
Qed.

Lemma wf_step (o : op) (q : vtlist) :
  delay_ok o = true -> wf q -> wf (snd (step o q)).
Proof.
  intros Hok Hwf. destruct o as [vtp delay func par|vtp|]; cbn [step snd].
  - cbn [delay_ok] in Hok. apply andb_prop in Hok. destruct Hok as [H1 H2].
    apply Z.leb_le in H1, H2. apply wf_setTimer; [exact Hwf|lia].
  - apply wf_resetTimer. exact Hwf.
  - apply wf_tick. exact Hwf.
Qed.

Lemma wf_nil : wf [].
Proof. repeat split; [constructor|constructor|cbn; lia]. Qed.

(** Every history of calls with valid delays keeps the queue invariant. *)
Lemma wf_run (ops : list op) (q : vtlist) :
  forallb delay_ok ops = true -> wf q -> wf (snd (run ops q)).
Proof.
  revert q. induction ops as [|o rest IH]; intros q Hok Hwf; [exact Hwf|].
  cbn [forallb] in Hok. apply andb_prop in Hok. destruct Hok as [Ho Hrest].
  cbn [run]. pose proof (wf_step o q Ho Hwf) as Hs.
  destruct (step o q) as [f1 q1]. specialize (IH q1 Hrest Hs).
  destruct (run rest q1) as [f2 q2]. exact IH.
Qed.

(** *** Ticks left until a timer expires *)

(** The ticks left of an armed timer lie between 0 and the last deadline. *)
Lemma remaining_bounds (x : Z) (q : vtlist) (r : Z) :
  nonneg q -> remaining x q = Some r -> 0 <= r <= total q.
Proof.
  revert r. induction q as [|t rest IH]; intros r Hnn Hr; [discriminate|].
  inversion Hnn as [|? ? Ht Hrest]; subst.
  pose proof (total_nonneg rest Hrest) as Hrest0.
  cbn [remaining total] in *. destruct (vt_addr t =? x).
  - injection Hr as <-. lia.
  - destruct (remaining x rest) as [r'|]; [|discriminate].
    injection Hr as <-. specialize (IH r' Hrest eq_refl). lia.
Qed.

(** Between ticks an armed timer has at least one tick to go. *)
Lemma remaining_at_least_one (x : Z) (q : vtlist) (r : Z) :
  wf q -> remaining x q = Some r -> 1 <= r.
Proof.
  intros (Hnd & Hnn & Htot & Hhead) Hr.
  destruct q as [|t rest]; [discriminate|].
  inversion Hnn as [|? ? Ht Hrest]; subst.
  cbn [remaining] in Hr. destruct (vt_addr t =? x).
  - injection Hr as <-. exact Hhead.
  - destruct (remaining x rest) as [r'|] eqn:Hr'; [|discriminate].
    injection Hr as <-.
    pose proof (remaining_bounds x rest r' Hrest Hr'). lia.
Qed.

Lemma remaining_armed (x : Z) (q : vtlist) (r : Z) :
  remaining x q = Some r -> In x (map vt_addr q).
Proof.
  revert r. induction q as [|t rest IH]; intros r Hr; [discriminate|].
  cbn [remaining] in Hr. cbn [map In].
  destruct (Z.eqb_spec (vt_addr t) x) as [Heq|Hne]; [left; exact Heq|].
  destruct (remaining x rest) as [r'|]; [|discriminate].
  right. exact (IH r' eq_refl).
Qed.

(** Cancelling another timer leaves the deadline as it was. *)
Lemma remaining_resetTimer (x vtp : Z) (q : vtlist) :
  x <> vtp -> nonneg q -> total q <= max_value systime_t ->
  remaining x (resetTimer vtp q) = remaining x q.
Proof.
  intros Hne. induction q as [|t rest IH]; intros Hnn Htot; [reflexivity|].
  inversion Hnn as [|? ? Ht Hrest]; subst.
  pose proof (total_nonneg rest Hrest) as Hrest0.
  cbn [total] in Htot. cbn [resetTimer remaining].
  destruct (Z.eqb_spec (vt_addr t) vtp) as [Heq|Hne'].
  - destruct (Z.eqb_spec (vt_addr t) x) as [Heq'|_]; [congruence|].
    destruct rest as [|n rest']; [reflexivity|].
    inversion Hrest as [|? ? Hn Hrest']; subst.
    pose proof (total_nonneg rest' Hrest') as Hrest'0.
    cbn [total] in *. unfold add_in. rewrite cast_systime_small by lia.
    cbn [remaining set_delta vt_addr vt_delta].
    destruct (vt_addr n =? x); cbn [option_map].
    + f_equal. lia.
    + destruct (remaining x rest'); cbn [option_map]; [f_equal; lia|reflexivity].
  - cbn [remaining]. rewrite IH by (assumption || lia). reflexivity.
Qed.

(** Arming another timer leaves the deadline as it was. *)
Lemma remaining_vt_insert_other (x vtp delay func par : Z) (q : vtlist) :
  x <> vtp -> nonneg q -> total q <= max_value systime_t ->
  0 <= delay <= max_value systime_t ->
  remaining x (vt_insert vtp delay func par q) = remaining x q.
Proof.
  intros Hne. revert delay.
  induction q as [|p rest IH]; intros delay Hnn Htot Hd.
  - cbn. destruct (Z.eqb_spec vtp x); [congruence|reflexivity].
  - inversion Hnn as [|? ? Hp Hrest]; subst.
    pose proof (total_nonneg rest Hrest) as Hrest0.
    cbn [total] in Htot. cbn [vt_insert].
    destruct (Z.leb_spec (vt_delta p) delay) as [Hle|Hgt];
      unfold sub_in; rewrite cast_systime_small by lia.
    + cbn [remaining]. rewrite IH by (assumption || lia). reflexivity.
    + cbn [remaining set_delta vt_addr vt_delta].
      destruct (Z.eqb_spec vtp x); [congruence|].
      destruct (vt_addr p =? x); cbn [option_map]; [f_equal; lia|].
      destruct (remaining x rest); cbn [option_map]; [f_equal; lia|reflexivity].
Qed.

(** A freshly armed timer has its delay left. *)
Lemma remaining_vt_insert_self (vtp delay func par : Z) (q : vtlist) :
  ~ In vtp (map vt_addr q) -> nonneg q -> total q <= max_value systime_t ->
  0 <= delay <= max_value systime_t ->
  remaining vtp (vt_insert vtp delay func par q) = Some delay.
Proof.
  revert delay. induction q as [|p rest IH]; intros delay Hnotin Hnn Htot Hd.
  - cbn. rewrite Z.eqb_refl. reflexivity.
  - inversion Hnn as [|? ? Hp Hrest]; subst.
    pose proof (total_nonneg rest Hrest) as Hrest0.
    cbn [total] in Htot. cbn [map In] in Hnotin. cbn [vt_insert].
    destruct (Z.leb_spec (vt_delta p) delay) as [Hle|Hgt].
    + unfold sub_in; rewrite cast_systime_small by lia.
      cbn [remaining]. destruct (Z.eqb_spec (vt_addr p) vtp); [tauto|].
      rewrite IH by (tauto || assumption || lia). cbn. f_equal. lia.
    + cbn [remaining vt_addr]. rewrite Z.eqb_refl. reflexivity.
Qed.

(** The loop of the tick handler fires a timer with no tick left and keeps
    one that has ticks left. *)
Lemma remaining_fire_expired (x : Z) (q : vtlist) (s : Z) :
  nonneg q -> remaining x q = Some s ->
  (s = 0 -> exists i, In i (fst (fire_expired q)) /\ inv_timer i = x) /\
  (0 < s -> remaining x (snd (fire_expired q)) = Some s).
Proof.
  revert s. induction q as [|t rest IH]; intros s Hnn Hs; [discriminate|].
  inversion Hnn as [|? ? Ht Hrest]; subst.
  cbn [remaining] in Hs. cbn [fire_expired].
  destruct (Z.eqb_spec (vt_delta t) 0) as [Hz|Hnz].
  - destruct (Z.eqb_spec (vt_addr t) x) as [Heq|Hne].
    + injection Hs as <-. destruct (fire_expired rest) as [fired q'].
      split; [|lia]. intros _. exists (invoke t). split; [left; reflexivity|exact Heq].
    + destruct (remaining x rest) as [s'|] eqn:Hs'; [|discriminate].
      injection Hs as <-. destruct (IH s' Hrest eq_refl) as [IH0 IHpos].
      destruct (fire_expired rest) as [fired q']. cbn [fst snd] in *.
      rewrite Hz, Z.add_0_l. split.
      * intros Hs0. destruct (IH0 Hs0) as (i & Hi & Hx).
        exists i. split; [right; exact Hi|exact Hx].
      * exact IHpos.
  - cbn [fst snd remaining].
    pose proof (remaining_bounds x (t :: rest) s Hnn) as Hb.
    cbn [remaining] in Hb.
    destruct (Z.eqb_spec (vt_addr t) x) as [Heq|Hne].
    + injection Hs as <-. split; [lia|reflexivity].
    + destruct (remaining x rest) as [s'|] eqn:Hs'; [|discriminate].
      injection Hs as <-.
      pose proof (remaining_bounds x rest s' Hrest Hs') as Hb'.
      split; [lia|reflexivity].
Qed.

(** A tick fires a timer with one tick left, and takes one tick off a later
    deadline. *)
Lemma remaining_tick (x : Z) (q : vtlist) (r : Z) :
  wf q -> remaining x q = Some r ->
  1 <= r /\
  (r = 1 -> exists i, In i (fst (tick q)) /\ inv_timer i = x) /\
  (1 < r -> remaining x (snd (tick q)) = Some (r - 1)).
Proof.
  intros (Hnd & Hnn & Htot & Hhead) Hr.
  destruct q as [|t rest]; [discriminate|].
  inversion Hnn as [|? ? Ht Hrest]; subst.
  pose proof (total_nonneg rest Hrest) as Hrest0.
  cbn [total] in Htot. unfold tick, sub_in.
  rewrite cast_systime_small by lia.
  assert (Hr1 : 1 <= r)
    by (apply (remaining_at_least_one x (t :: rest)); repeat split; assumption).
  assert (Hr' : remaining x (set_delta (vt_delta t - 1) t :: rest)
                = Some (r - 1)).
  { cbn [remaining set_delta vt_addr vt_delta] in *.
    destruct (vt_addr t =? x).
    - injection Hr as <-. reflexivity.
    - destruct (remaining x rest) as [r'|]; [|discriminate].
      injection Hr as <-. cbn. f_equal. lia. }
  destruct (remaining_fire_expired x (set_delta (vt_delta t - 1) t :: rest)
              (r - 1)) as [H0 Hpos];
    [constructor; [cbn; lia|exact Hrest]|exact Hr'|].
  split; [exact Hr1|]. split; intros H; [apply H0|apply Hpos]; lia.
Qed.

Lemma remaining_step (x : Z) (o : op) (q : vtlist) (r : Z) :
  wf q -> remaining x q = Some r ->
  delay_ok o = true -> mentions x o = false ->
  1 <= r /\
  (ticks [o] < r -> remaining x (snd (step o q)) = Some (r - ticks [o])) /\
  (r <= ticks [o] -> exists i, In i (fst (step o q)) /\ inv_timer i = x).
Proof.
  intros Hwf Hr Hok Hm.
  pose proof (remaining_at_least_one x q r Hwf Hr) as Hr1.
  split; [exact Hr1|].
  destruct Hwf as (Hnd & Hnn & Htot & Hhead).
  destruct o as [vtp delay func par|vtp|]; cbn [step fst snd ticks mentions] in *.
  - apply Z.eqb_neq in Hm. apply andb_prop in Hok. destruct Hok as [H1 H2].
    apply Z.leb_le in H1, H2.
    destruct (resetTimer_total vtp q Hnn Htot) as [Hnn' Htot'].
    split; [|lia]. intros _. unfold setTimer.
    rewrite cast_systime_small by lia.
    rewrite remaining_vt_insert_other by (congruence || assumption || lia).
    rewrite remaining_resetTimer by (congruence || assumption).
    rewrite Hr. f_equal. lia.
  - apply Z.eqb_neq in Hm. split; [|lia]. intros _.
    rewrite remaining_resetTimer by (congruence || assumption).
    rewrite Hr. f_equal. lia.
  - destruct (remaining_tick x q r) as (_ & H1 & H2);
      [repeat split; assumption|exact Hr|].
    split; intros H; [apply H2|apply H1]; lia.
Qed.

Lemma ticks_nonneg (ops : list op) : 0 <= ticks ops.
Proof.
  induction ops as [|o rest IH]; cbn [ticks]; [lia|destruct o; lia].
Qed.

Lemma ticks_cons (o : op) (rest : list op) :
  ticks (o :: rest) = ticks [o] + ticks rest.
Proof. destruct o; cbn [ticks]; lia. Qed.

(** While fewer ticks pass than the timer has left, it stays armed and its
    deadline comes closer by the ticks passed. *)
Lemma remaining_run (x : Z) (ops : list op) (q : vtlist) (r : Z) :
  wf q -> remaining x q = Some r ->
  forallb delay_ok ops = true ->
  forallb (fun o => negb (mentions x o)) ops = true ->
  ticks ops < r ->
  remaining x (snd (run ops q)) = Some (r - ticks ops).
Proof.
  revert q r. induction ops as [|o rest IH]; intros q r Hwf Hr Hok Hq Ht.
  - cbn. rewrite Hr. f_equal. lia.
  - cbn [forallb] in Hok, Hq.
    apply andb_prop in Hok. destruct Hok as [Ho Hok].
    apply andb_prop in Hq. destruct Hq as [Hm Hq]. apply negb_true_iff in Hm.
    rewrite ticks_cons in *. pose proof (ticks_nonneg rest) as Hrest0.
    destruct (remaining_step x o q r Hwf Hr Ho Hm) as (_ & Hs & _).
    pose proof (wf_step o q Ho Hwf) as Hwf1.
    cbn [run]. destruct (step o q) as [f1 q1]. cbn [fst snd] in *.
    specialize (IH q1 (r - ticks [o]) Hwf1 (Hs ltac:(lia)) Hok Hq ltac:(lia)).
    destruct (run rest q1) as [f2 q2]. cbn [snd] in *. rewrite IH. f_equal. lia.
Qed.

(** Once as many ticks pass as the timer has left, its callback has been
    invoked. *)
Lemma run_fires_by_deadline (x : Z) (ops : list op) (q : vtlist) (r : Z) :
  wf q -> remaining x q = Some r ->
  forallb delay_ok ops = true ->
  forallb (fun o => negb (mentions x o)) ops = true ->
  r <= ticks ops ->
  exists i, In i (fst (run ops q)) /\ inv_timer i = x.
Proof.
  revert q r. induction ops as [|o rest IH]; intros q r Hwf Hr Hok Hq Ht.
  - exfalso. cbn [ticks] in Ht.
    pose proof (remaining_at_least_one x q r Hwf Hr). lia.
  - cbn [forallb] in Hok, Hq.
    apply andb_prop in Hok. destruct Hok as [Ho Hok].
    apply andb_prop in Hq. destruct Hq as [Hm Hq]. apply negb_true_iff in Hm.
    rewrite ticks_cons in *. pose proof (ticks_nonneg rest) as Hrest0.
    destruct (remaining_step x o q r Hwf Hr Ho Hm) as (Hr1 & Hs & Hf).
    pose proof (wf_step o q Ho Hwf) as Hwf1.
    cbn [run]. destruct (step o q) as [f1 q1]. cbn [fst snd] in *.
    destruct (Z_lt_le_dec (ticks [o]) r) as [Hlt|Hle].
    + specialize (IH q1 (r - ticks [o]) Hwf1 (Hs Hlt) Hok Hq ltac:(lia)).
      destruct (run rest q1) as [f2 q2]. cbn [fst] in *.
      destruct IH as (i & Hi & Hx). exists i. split; [|exact Hx].
      apply in_or_app. right. exact Hi.
    + destruct (Hf Hle) as (i & Hi & Hx).
      destruct (run rest q1) as [f2 q2]. cbn [fst].
      exists i. split; [|exact Hx]. apply in_or_app. left. exact Hi.
Qed.

(** *** Timers with equal deadlines *)

Lemma filter_absent (a b : Z) (q : vtlist) :
  ~ In b (map vt_addr q) ->
  filter (of_either a b) (map invoke q) = filter (of_either a a) (map invoke q).
Proof.
  induction q as [|t rest IH]; intros Hnotin; [reflexivity|].
  cbn [map In] in Hnotin. cbn [map filter]. rewrite IH by tauto.
  replace (of_either a b (invoke t)) with (of_either a a (invoke t));
    [reflexivity|].
  unfold of_either. cbn [invoke inv_timer].
  destruct (Z.eqb_spec (vt_addr t) b); [tauto|].
  destruct (vt_addr t =? a); reflexivity.
Qed.

Lemma filter_unarmed (a : Z) (q : vtlist) :
  ~ In a (map vt_addr q) ->
  filter (of_either a a) (map invoke q) = [].
Proof.
  induction q as [|t rest IH]; intros Hnotin; [reflexivity|].
  cbn [map In] in Hnotin. cbn [map filter]. rewrite IH by tauto.
  unfold of_either. cbn [invoke inv_timer].
  destruct (Z.eqb_spec (vt_addr t) a); [tauto|reflexivity].
Qed.

Lemma filter_armed (a b : Z) (q : vtlist) :
  In a (map vt_addr q) -> filter (of_either a b) (map invoke q) <> [].
Proof.
  induction q as [|t rest IH]; intros Hin; [destruct Hin|].
  cbn [map filter]. unfold of_either at 1. cbn [invoke inv_timer].
  destruct (Z.eqb_spec (vt_addr t) a) as [Heq|Hne]; [discriminate|].
  destruct Hin as [Hin|Hin]; [contradiction|].
  destruct (vt_addr t =? b); [discriminate|exact (IH Hin)].
Qed.

Lemma of_either_self (a b f p : Z) : of_either a b (mk_inv a f p) = true.
Proof. unfold of_either. cbn. rewrite Z.eqb_refl. reflexivity. Qed.

Lemma of_either_other (a b f p : Z) : of_either a b (mk_inv b f p) = true.
Proof. unfold of_either. cbn. rewrite Z.eqb_refl. apply orb_true_r. Qed.

Lemma vt_insert_first (a f p delay : Z) (q : vtlist) :
  ~ In a (map vt_addr q) ->
  filter (of_either a a) (map invoke (vt_insert a delay f p q))
    = [mk_inv a f p].
Proof.
  intros Hnotin.
  destruct (vt_insert_events a delay f p q) as (l1 & l2 & H1 & H2).
  pose proof (filter_unarmed a q Hnotin) as Hnil.
  rewrite H1, filter_app in Hnil. apply app_eq_nil in Hnil.
  destruct Hnil as [Hl1 Hl2].
  rewrite H2, filter_app. cbn [filter]. rewrite of_either_self, Hl1, Hl2.
  reflexivity.
Qed.

(** The walk places a timer whose delay equals the ticks left of an armed
    timer [a] behind [a]. *)
Lemma vt_insert_after (a b d fb pb : Z) (ia : invocation) (q : vtlist) :
  a <> b -> nonneg q -> total q <= max_value systime_t ->
  remaining a q = Some d ->
  filter (of_either a b) (map invoke q) = [ia] ->
  filter (of_either a b) (map invoke (vt_insert b d fb pb q))
    = [ia; mk_inv b fb pb].
Proof.
  intros Hab. revert d.
  induction q as [|t rest IH]; intros d Hnn Htot Hd Hf; [discriminate|].
  inversion Hnn as [|? ? Ht Hrest]; subst.
  pose proof (total_nonneg rest Hrest) as Hrest0.
  pose proof (remaining_bounds a _ d Hnn Hd) as Hb.
  cbn [total] in *. cbn [remaining] in Hd. cbn [map filter] in Hf.
  unfold of_either at 1 in Hf. cbn [invoke inv_timer] in Hf.
  cbn [vt_insert].
  destruct (Z.eqb_spec (vt_addr t) a) as [Heq|Hne].
  - injection Hd as <-. rewrite Z.leb_refl.
    cbn [orb] in Hf. injection Hf as Hia Hnil.
    cbn [map filter]. unfold of_either at 1. cbn [invoke inv_timer].
    rewrite (proj2 (Z.eqb_eq _ _) Heq). cbn [orb]. rewrite Hia. f_equal.
    destruct (vt_insert_events b (sub_in systime_t (vt_delta t) (vt_delta t))
                fb pb rest) as (l1 & l2 & H1 & H2).
    rewrite H1, filter_app in Hnil. apply app_eq_nil in Hnil.
    destruct Hnil as [Hl1 Hl2].
    rewrite H2, filter_app. cbn [filter].
    rewrite of_either_other, Hl1, Hl2. reflexivity.
  - destruct (remaining a rest) as [d'|] eqn:Hd'; [|discriminate].
    injection Hd as <-.
    pose proof (remaining_bounds a rest d' Hrest Hd') as Hb'.
    destruct (Z.leb_spec (vt_delta t) (vt_delta t + d')) as [_|Hgt]; [|lia].
    unfold sub_in. rewrite cast_systime_small by lia.
    replace (vt_delta t + d' - vt_delta t) with d' by lia.
    cbn [map filter]. unfold of_either at 1. cbn [invoke inv_timer].
    rewrite (proj2 (Z.eqb_neq _ _) Hne) in *. cbn [orb] in *.
    destruct (Z.eqb_spec (vt_addr t) b) as [Heqb|Hneb].
    + exfalso. injection Hf as Hia Hnil.
      apply (filter_armed a b rest (remaining_armed a rest d' Hd')).
      exact Hnil.
    + apply IH; [exact Hrest|lia|reflexivity|exact Hf].
Qed.

Lemma ordered_prefix (a b : Z) (ia ib : invocation) (l later : list invocation) :
  l ++ later = [ia; ib] ->
  l = [] \/ l = [ia] \/ l = [ia; ib].
Proof.
  intros H. destruct l as [|x [|y [|z l]]]; cbn in H.
  - left. reflexivity.
  - right. left. congruence.
  - right. right. congruence.
  - discriminate.
Qed.

(** C5: timers with equal absolute deadlines fire in insertion order.
    After any history [pre], timer [A] is armed with delay [dA]; while [A]
    is pending a history [mid] passes; then timer [B] is armed with the
    delay that gives it [A]'s deadline, [dA - ticks mid]; then a history
    [post] passes.  [mid] and [post] hold ticks and system calls on other
    timers.  Of the callbacks of [A] and [B] invoked after [B] was armed,
    [A]'s comes first and [B]'s second, each at most once; and once [post]
    holds as many ticks as the delay of [B], both have been invoked. *)
Theorem equal_deadline_timers_fire_in_insertion_order
    (pre mid post : list op) (A B dA fA pA fB pB : Z) :
  A <> B ->
  1 <= dA <= max_value systime_t ->
  ticks mid < dA ->
  forallb delay_ok (pre ++ mid ++ post) = true ->
  forallb (quiet A B) (mid ++ post) = true ->
  let q0 := snd (run pre []) in
  let q1 := snd (run (SetTimer A dA fA pA :: mid) q0) in
  let fired :=
    fst (run (SetTimer B (dA - ticks mid) fB pB :: post) q1) in
  let order := filter (of_either A B) fired in
  (order = [] \/ order = [mk_inv A fA pA] \/
   order = [mk_inv A fA pA; mk_inv B fB pB]) /\
  (dA - ticks mid <= ticks post ->
   order = [mk_inv A fA pA; mk_inv B fB pB]).
Proof.
  intros Hab HdA Hmid Hok Hquiet q0 q1 fired order.
  rewrite forallb_app in Hok, Hquiet.
  apply andb_prop in Hok. destruct Hok as [Hok0 Hok].
  rewrite forallb_app in Hok.
  apply andb_prop in Hok. destruct Hok as [Hok1 Hok2].
  apply andb_prop in Hquiet. destruct Hquiet as [Hq1 Hq2].
  pose proof (ticks_nonneg mid) as Hmid0.
  set (dB := dA - ticks mid) in *.
  (* the queue when A is armed *)
  assert (Hwf0 : wf q0) by (apply wf_run; [exact Hok0|exact wf_nil]).
  set (qa := setTimer A dA fA pA q0).
  assert (Hwfa : wf qa) by (apply wf_setTimer; assumption).
  destruct (wf_resetTimer A q0 Hwf0) as (Hnd0 & Hnn0 & Htot0 & _).
  assert (HA0 : ~ In A (map vt_addr (resetTimer A q0)))
    by (apply resetTimer_detaches, Hwf0).
  assert (Hra : remaining A qa = Some dA).
  { unfold qa, setTimer. rewrite cast_systime_small by lia.
    apply remaining_vt_insert_self; (assumption || lia). }
  assert (Hfa : filter (of_either A A) (map invoke qa) = [mk_inv A fA pA]).
  { unfold qa, setTimer. apply vt_insert_first. exact HA0. }
  (* the history between the two calls *)
  assert (Hq1A : forallb (fun o => negb (mentions A o)) mid = true).
  { rewrite forallb_forall in *. intros o Ho. specialize (Hq1 o Ho).
    unfold quiet in Hq1. destruct (mentions A o); [discriminate|reflexivity]. }
  assert (Hq1AA : forallb (quiet A A) mid = true).
  { rewrite forallb_forall in *. intros o Ho. specialize (Hq1A o Ho).
    unfold quiet. destruct (mentions A o); [discriminate|reflexivity]. }
  pose proof (wf_run mid qa Hok1 Hwfa) as Hwf1.
  pose proof (remaining_run A mid qa dA Hwfa Hra Hok1 Hq1A Hmid) as Hr1.
  pose proof (run_events A A mid qa Hq1AA) as He1.
  assert (Hq1eq : q1 = snd (run mid qa)).
  { unfold q1. cbn [run step]. fold qa.
    destruct (run mid qa) as [f q]. reflexivity. }
  rewrite <- Hq1eq in Hwf1, Hr1, He1. fold dB in Hr1.
  rewrite Hfa, filter_app in He1.
  assert (Hf1 : filter (of_either A A) (map invoke q1) = [mk_inv A fA pA]).
  { pose proof (filter_armed A A q1 (remaining_armed A q1 dB Hr1)) as Hne.
    destruct (filter (of_either A A) (fst (run mid qa))) as [|x l].
    - exact He1.
    - destruct (filter (of_either A A) (map invoke q1)); [contradiction|].
      destruct l; discriminate. }
  (* the queue when B is armed *)
  destruct Hwf1 as (Hnd1 & Hnn1 & Htot1 & Hhead1).
  assert (Hwf1 : wf q1) by (repeat split; assumption).
  set (qb := setTimer B dB fB pB q1).
  assert (HdB : 1 <= dB <= max_value systime_t) by (unfold dB; lia).
  assert (Hwfb : wf qb) by (apply wf_setTimer; assumption).
  destruct (wf_resetTimer B q1 Hwf1) as (Hnd1' & Hnn1' & Htot1' & _).
  assert (HB1 : ~ In B (map vt_addr (resetTimer B q1)))
    by (apply resetTimer_detaches, Hwf1).
  assert (Hrb : remaining B qb = Some dB).
  { unfold qb, setTimer. rewrite cast_systime_small by lia.
    apply remaining_vt_insert_self; (assumption || lia). }
  assert (Hfb : filter (of_either A B) (map invoke qb)
                = [mk_inv A fA pA; mk_inv B fB pB]).
  { unfold qb, setTimer. rewrite cast_systime_small by lia.
    apply vt_insert_after; try assumption.
    - rewrite remaining_resetTimer by assumption. exact Hr1.
    - rewrite filter_absent by exact HB1.
      rewrite resetTimer_filter; [exact Hf1|].
      intros i Hi. apply of_either_timer; congruence. }
  (* the history after the second call *)
  pose proof (run_events A B post qb Hq2) as He2.
  assert (Hfired : fired = fst (run post qb)).
  { unfold fired. cbn [run step]. fold qb.
    destruct (run post qb) as [f q]. reflexivity. }
  rewrite <- Hfired, Hfb, filter_app in He2. fold order in He2.
  split; [exact (ordered_prefix A B _ _ _ _ He2)|].
  intros Hdue.
  assert (Hq2B : forallb (fun o => negb (mentions B o)) post = true).
  { rewrite forallb_forall in *. intros o Ho. specialize (Hq2 o Ho).
    unfold quiet in Hq2. destruct (mentions A o), (mentions B o);
      (discriminate || reflexivity). }
  destruct (run_fires_by_deadline B post qb dB Hwfb Hrb Hok2 Hq2B Hdue)
    as (i & Hi & Hx).
  rewrite <- Hfired in Hi.
  assert (Hin : In i order).
  { apply filter_In. split; [exact Hi|].
    unfold of_either. rewrite (proj2 (Z.eqb_eq _ _) Hx). apply orb_true_r. }
  destruct (ordered_prefix A B _ _ _ _ He2) as [H|[H|H]]; rewrite H in *.
  - destruct Hin.
  - destruct Hin as [Hin|[]]. subst i. cbn in Hx. congruence.
  - reflexivity.
Qed.

Lemma equal_deadline_timers_fire_in_insertion_order_witness :
  filter (of_either 1 2)
    (fst (run (SetTimer 2 (3 - ticks [Tick]) 20 21 :: [Tick; Tick])
            (snd (run (SetTimer 1 3 10 11 :: [Tick]) (snd (run [] []))))))
  = [mk_inv 1 10 11; mk_inv 2 20 21].
Proof.
  refine (proj2 (equal_deadline_timers_fire_in_insertion_order
                   [] [Tick] [Tick; Tick] 1 2 3 10 11 20 21 _ _ _ _ _) _);
    vm_compute; repeat split; discriminate.
Defined.

(** Three timers, two of them with the deadline of tick 2: the queue holds
    the tie in insertion order, and the second tick fires it in that
    order. *)
Example tie_in_queue_order :
  run [SetTimer 1 2 10 11; SetTimer 2 2 20 21; SetTimer 3 1 30 31] []
  = ([], [mk_vt 3 1 30 31; mk_vt 1 1 10 11; mk_vt 2 0 20 21]) /\
  run [SetTimer 1 2 10 11; SetTimer 2 2 20 21; SetTimer 3 1 30 31;
       Tick; Tick] []
  = ([mk_inv 3 30 31; mk_inv 1 10 11; mk_inv 2 20 21], []).
Proof. split; reflexivity. Qed.

(** The scenario of the 15 ms timer: armed with [MS2ST 15] ticks, the
    callback has not been invoked after one tick and is invoked, with its
    parameter, by the second. *)
Example timer_of_15_ms :
  fst (run [SetTimer 1 (MS2ST 15) 10 11; Tick] []) = [] /\
  fst (run [SetTimer 1 (MS2ST 15) 10 11; Tick; Tick] []) = [mk_inv 1 10 11].
Proof. split; reflexivity. Qed.

(** A cancelled timer hands its delta to the timer behind it and never
    fires. *)
Example cancel_keeps_later_deadline :
  run [SetTimer 1 2 10 11; SetTimer 2 5 20 21; ResetTimer 1] []
  = ([], [mk_vt 2 5 20 21]) /\
  fst (run [SetTimer 1 2 10 11; SetTimer 2 5 20 21; ResetTimer 1;
            Tick; Tick; Tick; Tick; Tick] [])
  = [mk_inv 2 20 21].
Proof. split; reflexivity. Qed.
